(** * Minesweeper knowledge engine: a shallow embedding of [minesweeper.py]

    The three classes of the program, [Minesweeper], [Sentence] and
    [MinesweeperAI], are embedded as three modules.  Python integers are
    [Z], a cell is a pair of integers, a Python [set] of cells is a
    [gset Cell], a Python [list] is a [list].  Methods that mutate [self]
    take the object and return the new one.  The only statement of the
    engine that can raise is [list.remove]; it is modelled with a [result]
    type so that "the call returns normally" is a theorem and not an
    assumption. *)

From stdpp Require Import base gmap sets fin_sets list.
From Stdlib Require Import ZArith Lia.

Local Open Scope Z_scope.
#[local] Set Warnings "-clear-no-such-hyp".

(** ** Cells and Python exceptions *)

Abbreviation Cell := (Z * Z)%type.

Inductive exn : Type :=
| ValueError.

Inductive result (A : Type) : Type :=
| Ok (a : A)
| Raise (e : exn).
Arguments Ok {A} a.
Arguments Raise {A} e.

#[global] Instance result_bind : MBind result := λ A B k m,
  match m with
  | Ok a => k a
  | Raise e => Raise e
  end.

(** ** The double loop over the 3×3 block around a cell

    [for i in range(cell[0] - 1, cell[0] + 2):
       for j in range(cell[1] - 1, cell[1] + 2):]
    enumerated in the order of the loops. *)

Definition range3 (a : Z) : list Z := [a; a + 1; a + 2].

Definition around (cell : Cell) : list Cell :=
  i ← range3 (cell.1 - 1); j ← range3 (cell.2 - 1); [(i, j)].

(** [range(n)] *)
Definition range (n : Z) : list Z := Z.of_nat <$> seq 0 (Z.to_nat n).

(** ** Python lists: [list.remove] and the remove-while-scanning-a-copy loop *)

Module PyList.
Section remove.
Context {A : Type} `{EqDecision A}.

(** [l.remove(x)]: drops the first element equal to [x], raises
    [ValueError] when there is none. *)
Fixpoint remove (x : A) (l : list A) : result (list A) :=
  match l with
  | [] => Raise ValueError
  | y :: l' =>
      if decide (y = x) then Ok l'
      else r ← remove x l'; Ok (y :: r)
  end.

(** [for x in copy: if P(x): l.remove(x)] *)
Fixpoint remove_loop (P : A → bool) (copy l : list A) : result (list A) :=
  match copy with
  | [] => Ok l
  | x :: copy' =>
      if P x then l' ← remove x l; remove_loop P copy' l'
      else remove_loop P copy' l
  end.

End remove.
End PyList.

(** ** class Minesweeper

    The board is a [height × width] matrix of booleans that the
    constructor keeps in step with the set [self.mines]: [board[i][j]] is
    [True] exactly for the cells of [mines].  The matrix is represented by
    that set. *)

Module Minesweeper.

Record t : Type := Build { height : Z; width : Z; mines : gset Cell }.

Definition board (self : t) (i j : Z) : bool := bool_decide ((i, j) ∈ mines self).

Definition is_mine (self : t) (cell : Cell) : bool := board self cell.1 cell.2.

Definition nearby_step (self : t) (cell : Cell) (count : Z) (ij : Cell) : Z :=
  if decide (ij = cell) then count
  else if decide ((0 ≤ ij.1 < height self) ∧ (0 ≤ ij.2 < width self)) then
    if board self ij.1 ij.2 then count + 1 else count
  else count.

Definition nearby_mines (self : t) (cell : Cell) : Z :=
  foldl (nearby_step self cell) 0 (around cell).

End Minesweeper.

(** ** class Sentence *)

Module Sentence.

Record t : Type := Build { cells : gset Cell; count : Z }.

#[global] Instance eq_dec : EqDecision t.
Proof. solve_decision. Defined.

(** [len(self.cells)] as a Python integer. *)
Definition len (self : t) : Z := Z.of_nat (size (cells self)).

Definition known_mines (self : t) : gset Cell :=
  if decide (len self = count self) then cells self else ∅.

Definition known_safes (self : t) : gset Cell :=
  if decide (count self = 0) then cells self else ∅.

Definition mark_mine (self : t) (cell : Cell) : t :=
  if decide (cell ∈ cells self)
  then Build (cells self ∖ {[cell]}) (count self - 1)
  else self.

Definition mark_safe (self : t) (cell : Cell) : t :=
  if decide (cell ∈ cells self)
  then Build (cells self ∖ {[cell]}) (count self)
  else self.

End Sentence.

(** ** class MinesweeperAI *)

Module MinesweeperAI.

Record t : Type := Build {
  height : Z;
  width : Z;
  moves_made : gset Cell;
  mines : gset Cell;
  safes : gset Cell;
  knowledge : list Sentence.t
}.

(** [__init__] *)
Definition init (height width : Z) : t := Build height width ∅ ∅ ∅ [].

Definition mark_mine (self : t) (cell : Cell) : t :=
  Build (height self) (width self) (moves_made self)
        (mines self ∪ {[cell]}) (safes self)
        ((λ sentence, Sentence.mark_mine sentence cell) <$> knowledge self).

Definition mark_safe (self : t) (cell : Cell) : t :=
  Build (height self) (width self) (moves_made self)
        (mines self) (safes self ∪ {[cell]})
        ((λ sentence, Sentence.mark_safe sentence cell) <$> knowledge self).

(** *** [add_knowledge], statement by statement *)

(** 1) [self.moves_made.add(cell)] *)
Definition record_move (self : t) (cell : Cell) : t :=
  Build (height self) (width self) (moves_made self ∪ {[cell]})
        (mines self) (safes self) (knowledge self).

(** 3) the body of the double loop: the accumulator is the pair
    [(neighbors, nearby_mines)]. *)
Definition scan_step (self : t) (cell : Cell)
    (acc : gset Cell * list Cell) (ij : Cell) : gset Cell * list Cell :=
  if decide (ij.1 = cell.1 ∧ ij.2 = cell.2) then acc
  else if decide ((0 ≤ ij.1 < height self) ∧ (0 ≤ ij.2 < width self)
                  ∧ (ij ∉ safes self) ∧ (ij ∉ moves_made self)) then
    if decide (ij ∈ mines self) then (acc.1, acc.2 ++ [ij])
    else ({[ij]} ∪ acc.1, acc.2)
  else acc.

Definition scan (self : t) (cell : Cell) : gset Cell * list Cell :=
  foldl (scan_step self cell) (∅, []) (around cell).

(** [Sentence(cells = neighbors, count = count - len(nearby_mines))] *)
Definition new_sentence (self : t) (cell : Cell) (count : Z) : Sentence.t :=
  Sentence.Build (scan self cell).1
                 (count - Z.of_nat (length (scan self cell).2)).

(** [self.knowledge.append(sentence)] *)
Definition append (self : t) (sentence : Sentence.t) : t :=
  Build (height self) (width self) (moves_made self)
        (mines self) (safes self) (knowledge self ++ [sentence]).

(** 4) the local sets [mines] and [safes] collected over the knowledge
    base, then added to [self.mines] and [self.safes]; adding the elements
    of a set one by one is written as a union. *)
Definition collect (known : Sentence.t → gset Cell)
    (kb : list Sentence.t) : gset Cell :=
  foldl (λ acc sentence, acc ∪ known sentence) ∅ kb.

Definition direct_pass (self : t) : t :=
  Build (height self) (width self) (moves_made self)
        (mines self ∪ collect Sentence.known_mines (knowledge self))
        (safes self ∪ collect Sentence.known_safes (knowledge self))
        (knowledge self).

(** 5) the body of the loop that fills [to_add] *)
Definition subset_step (new_sentence : Sentence.t)
    (to_add : list Sentence.t) (old_sentence : Sentence.t) : list Sentence.t :=
  if decide (Sentence.cells new_sentence ≠ ∅
             ∧ Sentence.cells old_sentence ≠ Sentence.cells new_sentence) then
    let to_add :=
      if decide (Sentence.cells old_sentence ⊆ Sentence.cells new_sentence)
      then to_add ++
           [Sentence.Build
              (Sentence.cells new_sentence ∖ Sentence.cells old_sentence)
              (Sentence.count new_sentence - Sentence.count old_sentence)]
      else to_add in
    if decide (Sentence.cells new_sentence ⊆ Sentence.cells old_sentence)
    then to_add ++
         [Sentence.Build
            (Sentence.cells old_sentence ∖ Sentence.cells new_sentence)
            (Sentence.count old_sentence - Sentence.count new_sentence)]
    else to_add
  else to_add.

Definition to_add (new_sentence : Sentence.t) (kb : list Sentence.t)
    : list Sentence.t :=
  foldl (subset_step new_sentence) [] kb.

Definition subset_pass (self : t) (new_sentence : Sentence.t) : t :=
  foldl append self (to_add new_sentence (knowledge self)).

(** 6) the three removal loops, each over a copy of the knowledge base *)
Definition no_cells (sentence : Sentence.t) : bool :=
  bool_decide (Sentence.len sentence = 0).

Definition no_mines (sentence : Sentence.t) : bool :=
  bool_decide (Sentence.count sentence = 0).

Definition all_mines (sentence : Sentence.t) : bool :=
  bool_decide (Sentence.len sentence = Sentence.count sentence).

Definition simplify (self : t) : result t :=
  kb ← PyList.remove_loop no_cells (knowledge self) (knowledge self);
  kb ← PyList.remove_loop no_mines kb kb;
  kb ← PyList.remove_loop all_mines kb kb;
  Ok (Build (height self) (width self) (moves_made self)
            (mines self) (safes self) kb).

(** The object after steps 1 and 2, the sentence built in step 3 (the
    variable [new_sentence] of the method), and the objects after steps 3,
    4 and 5. *)
Definition after_mark (self : t) (cell : Cell) : t :=
  mark_safe (record_move self cell) cell.

Definition built (self : t) (cell : Cell) (count : Z) : Sentence.t :=
  new_sentence (after_mark self cell) cell count.

Definition after_append (self : t) (cell : Cell) (count : Z) : t :=
  append (after_mark self cell) (built self cell count).

Definition after_direct (self : t) (cell : Cell) (count : Z) : t :=
  direct_pass (after_append self cell count).

Definition before_simplify (self : t) (cell : Cell) (count : Z) : t :=
  subset_pass (after_direct self cell count) (built self cell count).

Definition add_knowledge (self : t) (cell : Cell) (count : Z) : result t :=
  simplify (before_simplify self cell count).

(** A game seen from the engine: the calls [add_knowledge(cell, count)]
    made one after the other on the same object. *)
Fixpoint play (self : t) (calls : list (Cell * Z)) : result t :=
  match calls with
  | [] => Ok self
  | (cell, count) :: calls' =>
      self' ← add_knowledge self cell count; play self' calls'
  end.

(** *** Move selection

    [for i in self.safes] enumerates a set; the order is whatever the
    interpreter's hash table gives and is left open as [iter]. *)
Definition legal_moves (iter : gset Cell → list Cell) (self : t) : list Cell :=
  foldl (λ legal i, if decide (i ∉ moves_made self) then legal ++ [i] else legal)
        [] (iter (safes self)).

(** The result is the returned value and the object after the call. *)
Definition make_safe_move (iter : gset Cell → list Cell) (self : t)
    : option Cell * t :=
  match legal_moves iter self with
  | [] => (None, self)
  | move :: _ => (Some move, self)
  end.

(** [random.randrange(n)]: raises [ValueError] when [n] is not positive,
    otherwise yields a number below [n]; [draw] stands for the generator's
    output. *)
Definition randrange (draw : nat) (n : nat) : result nat :=
  match n with
  | O => Raise ValueError
  | S _ => Ok (draw mod n)%nat
  end.

Definition make_random_move (draw : nat) (self : t) : result (option Cell * t) :=
  let possible := i ← range (height self); j ← range (width self); [(i, j)] in
  possible ← PyList.remove_loop
                (λ i, bool_decide (i ∈ mines self ∨ i ∈ moves_made self))
                possible possible;
  match randrange draw (length possible) with
  | Ok k => Ok (possible !! k, self)
  | Raise _ => Ok (None, self)
  end.

End MinesweeperAI.


(** ** Vocabulary of the specification *)

(** The in-bounds grid neighbours of a cell, as the double loop meets them. *)
Definition neighbours (height width : Z) (cell : Cell) : list Cell :=
  filter (λ ij, ij ≠ cell ∧ (0 ≤ ij.1 < height) ∧ (0 ≤ ij.2 < width))
         (around cell).

(** A sentence says: exactly [count] of these cells are mines. *)
Definition holds (game : Minesweeper.t) (sentence : Sentence.t) : Prop :=
  Z.of_nat (size (Sentence.cells sentence ∩ Minesweeper.mines game))
  = Sentence.count sentence.

(** A call [add_knowledge(cell, count)] agrees with the game when the
    board reports [count] for [cell], which it does for a revealed cell,
    that is, one that is not a mine. *)
Definition consistent (game : Minesweeper.t) (call : Cell * Z) : Prop :=
  Minesweeper.is_mine game call.1 = false
  ∧ call.2 = Minesweeper.nearby_mines game call.1.

(** What the engine believes is true of the game. *)
Record sound (game : Minesweeper.t) (ai : MinesweeperAI.t) : Prop := Sound {
  sound_height : MinesweeperAI.height ai = Minesweeper.height game;
  sound_width : MinesweeperAI.width ai = Minesweeper.width game;
  sound_moves : MinesweeperAI.moves_made ai ⊆ MinesweeperAI.safes ai;
  sound_mines : MinesweeperAI.mines ai ⊆ Minesweeper.mines game;
  sound_safes : MinesweeperAI.safes ai ## Minesweeper.mines game;
  sound_knowledge : Forall (holds game) (MinesweeperAI.knowledge ai)
}.

(** The sentences that survive the three removal loops. *)
Definition retained (kb : list Sentence.t) : list Sentence.t :=
  filter (λ s, MinesweeperAI.all_mines s = false)
    (filter (λ s, MinesweeperAI.no_mines s = false)
       (filter (λ s, MinesweeperAI.no_cells s = false) kb)).

(** What one sentence of the knowledge base contributes to [to_add]. *)
Definition derived (new old s : Sentence.t) : Prop :=
  Sentence.cells new ≠ ∅ ∧ Sentence.cells old ≠ Sentence.cells new
  ∧ ((Sentence.cells old ⊆ Sentence.cells new
      ∧ s = Sentence.Build (Sentence.cells new ∖ Sentence.cells old)
                           (Sentence.count new - Sentence.count old))
     ∨ (Sentence.cells new ⊆ Sentence.cells old
        ∧ s = Sentence.Build (Sentence.cells old ∖ Sentence.cells new)
                             (Sentence.count old - Sentence.count new))).

(** The three sets of cells only gain elements from [self] to [self']. *)
Definition grows (self self' : MinesweeperAI.t) : Prop :=
  MinesweeperAI.moves_made self ⊆ MinesweeperAI.moves_made self'
  ∧ MinesweeperAI.mines self ⊆ MinesweeperAI.mines self'
  ∧ MinesweeperAI.safes self ⊆ MinesweeperAI.safes self'.

(** * Properties *)

(** ** Lists *)

Section pylist_facts.
Context {A : Type} `{EqDecision A}.
Implicit Types (x : A) (l pre post : list A) (P : A → bool).

Lemma remove_first_occurrence x pre post :
  x ∉ pre → PyList.remove x (pre ++ x :: post) = Ok (pre ++ post).
Proof.
  induction pre as [|y pre IH]; intros Hx; simpl.
  - by rewrite decide_True.
  - rewrite decide_False; [|set_solver].
    rewrite IH; [done|set_solver].
Qed.

Lemma remove_loop_prefix P pre copy :
  Forall (λ x, P x = false) pre →
  PyList.remove_loop P copy (pre ++ copy)
  = Ok (pre ++ filter (λ x, P x = false) copy).
Proof.
  revert pre. induction copy as [|x copy IH]; intros pre Hpre; simpl.
  - done.
  - destruct (P x) eqn:HP.
    + rewrite remove_first_occurrence.
      * simpl. rewrite IH; [|done]. by rewrite filter_cons_False; [|congruence].
      * intros Hin. rewrite Forall_forall in Hpre. specialize (Hpre _ Hin). congruence.
    + rewrite (cons_middle x pre copy), (assoc_L (++)).
      rewrite IH; [|by apply Forall_app; split; [|repeat constructor]].
      rewrite filter_cons_True; [|done]. by rewrite <-(assoc_L (++)).
Qed.

(** Removing, while scanning a copy, every element that satisfies [P]
    never raises and leaves the elements that do not satisfy [P]. *)
Lemma remove_loop_filter P l :
  PyList.remove_loop P l l = Ok (filter (λ x, P x = false) l).
Proof. apply (remove_loop_prefix P [] l). constructor. Qed.

End pylist_facts.

(** ** The 3×3 block *)

Lemma around_NoDup cell : NoDup (around cell).
Proof.
  destruct cell as [r c]. unfold around, range3. simpl.
  repeat (apply NoDup_cons; split;
          [rewrite ?not_elem_of_cons; repeat split;
           try (intros [=]; lia); apply not_elem_of_nil|]).
  apply NoDup_nil_2.
Qed.

Lemma neighbours_NoDup height width cell : NoDup (neighbours height width cell).
Proof. apply NoDup_filter, around_NoDup. Qed.

Lemma length_filter_split {A : Type} (P Q R : A → Prop)
    `{!∀ x, Decision (P x), !∀ x, Decision (Q x), !∀ x, Decision (R x)}
    (l : list A) :
  (∀ x, x ∈ l → P x ↔ (Q x ∨ R x)) → (∀ x, x ∈ l → Q x → R x → False) →
  length (filter P l) = (length (filter Q l) + length (filter R l))%nat.
Proof.
  induction l as [|x l IH]; intros Hiff Hdisj; [done|].
  rewrite !filter_cons.
  specialize (Hiff x (list_elem_of_here _ _)) as Hx.
  specialize (Hdisj x (list_elem_of_here _ _)) as Hx'.
  assert (IH' := IH (λ y Hy, Hiff y (list_elem_of_further _ _ _ Hy))
                      (λ y Hy, Hdisj y (list_elem_of_further _ _ _ Hy))).
  repeat case_decide; simpl; try lia; tauto.
Qed.

Import MinesweeperAI.

(** ** The removal loops *)

Lemma simplify_retained self :
  simplify self
  = Ok (Build (height self) (width self) (moves_made self) (mines self)
              (safes self) (retained (knowledge self))).
Proof.
  unfold simplify. rewrite remove_loop_filter. simpl.
  rewrite remove_loop_filter. simpl.
  by rewrite remove_loop_filter.
Qed.

Lemma elem_of_retained s kb :
  s ∈ retained kb ↔
  s ∈ kb ∧ Sentence.len s ≠ 0 ∧ Sentence.count s ≠ 0
  ∧ Sentence.len s ≠ Sentence.count s.
Proof.
  unfold retained, all_mines, no_mines, no_cells.
  rewrite !list_elem_of_filter, !bool_decide_eq_false. tauto.
Qed.

Lemma add_knowledge_retained self cell count :
  add_knowledge self cell count
  = Ok (let self' := before_simplify self cell count in
        Build (height self') (width self') (moves_made self') (mines self')
              (safes self') (retained (knowledge self'))).
Proof. apply simplify_retained. Qed.

(** ** The passes *)

Lemma foldl_append self l :
  foldl append self l
  = Build (height self) (width self) (moves_made self) (mines self)
          (safes self) (knowledge self ++ l).
Proof.
  revert self. induction l as [|s l IH]; intros self; simpl.
  - destruct self. simpl. by rewrite app_nil_r.
  - rewrite IH. simpl. by rewrite <-(assoc_L (++)).
Qed.

Lemma elem_of_foldl_union (known : Sentence.t → gset Cell) kb acc c :
  c ∈ foldl (λ acc sentence, acc ∪ known sentence) acc kb
  ↔ c ∈ acc ∨ ∃ s, s ∈ kb ∧ c ∈ known s.
Proof.
  revert acc. induction kb as [|s kb IH]; intros acc; simpl.
  - set_solver.
  - rewrite IH. set_solver.
Qed.

Lemma elem_of_collect known kb c :
  c ∈ collect known kb ↔ ∃ s, s ∈ kb ∧ c ∈ known s.
Proof. unfold collect. rewrite elem_of_foldl_union. set_solver. Qed.

Lemma elem_of_subset_step new acc old s :
  s ∈ subset_step new acc old ↔ s ∈ acc ∨ derived new old s.
Proof.
  unfold subset_step, derived.
  repeat case_decide; rewrite ?elem_of_app, ?list_elem_of_singleton;
    naive_solver.
Qed.

Lemma elem_of_foldl_subset_step new kb acc s :
  s ∈ foldl (subset_step new) acc kb
  ↔ s ∈ acc ∨ ∃ old, old ∈ kb ∧ derived new old s.
Proof.
  revert acc. induction kb as [|old kb IH]; intros acc; simpl.
  - set_solver.
  - rewrite IH, elem_of_subset_step. set_solver.
Qed.

Lemma elem_of_to_add new kb s :
  s ∈ to_add new kb ↔ ∃ old, old ∈ kb ∧ derived new old s.
Proof. unfold to_add. rewrite elem_of_foldl_subset_step. set_solver. Qed.

(** ** Step 3: the new sentence *)

Lemma foldl_scan_step_cells self cell l acc x :
  x ∈ (foldl (scan_step self cell) acc l).1
  ↔ x ∈ acc.1
    ∨ (x ∈ l ∧ x ≠ cell ∧ (0 ≤ x.1 < height self) ∧ (0 ≤ x.2 < width self)
       ∧ (x ∉ safes self) ∧ (x ∉ moves_made self) ∧ (x ∉ mines self)).
Proof.
  revert acc. induction l as [|ij l IH]; intros acc; simpl.
  - set_solver.
  - rewrite IH. unfold scan_step. destruct ij as [i j], cell as [r c], x as [a b].
    repeat case_decide; simpl in *; rewrite ?elem_of_union, ?elem_of_singleton,
      !elem_of_cons; naive_solver.
Qed.

Lemma foldl_scan_step_mines self cell l acc :
  (foldl (scan_step self cell) acc l).2
  = acc.2 ++ filter (λ x, x ≠ cell ∧ (0 ≤ x.1 < height self)
                          ∧ (0 ≤ x.2 < width self) ∧ (x ∉ safes self)
                          ∧ (x ∉ moves_made self) ∧ x ∈ mines self) l.
Proof.
  revert acc. induction l as [|ij l IH]; intros acc; simpl.
  - by rewrite app_nil_r.
  - rewrite IH, filter_cons. unfold scan_step.
    destruct ij as [i j], cell as [r c].
    repeat case_decide; simpl in *; rewrite <-?(assoc_L (++)); try done;
      exfalso; naive_solver.
Qed.

Lemma scan_cells self cell :
  (scan self cell).1
  = list_to_set (neighbours (height self) (width self) cell)
    ∖ (mines self ∪ safes self ∪ moves_made self).
Proof.
  apply set_eq. intros x. unfold scan, neighbours.
  rewrite foldl_scan_step_cells, elem_of_difference, elem_of_list_to_set,
    list_elem_of_filter, !elem_of_union. simpl.
  set_solver.
Qed.

Lemma scan_mines self cell :
  (scan self cell).2
  = filter (λ x, x ∈ mines self ∧ (x ∉ safes self) ∧ (x ∉ moves_made self))
           (neighbours (height self) (width self) cell).
Proof.
  unfold scan, neighbours. rewrite foldl_scan_step_mines. simpl.
  rewrite list_filter_filter. apply list_filter_iff. intros x. tauto.
Qed.

(** ** The board's count *)

Lemma foldl_nearby_step game cell l count :
  foldl (Minesweeper.nearby_step game cell) count l
  = count + Z.of_nat (length (filter
      (λ x, (x ≠ cell ∧ (0 ≤ x.1 < Minesweeper.height game)
             ∧ (0 ≤ x.2 < Minesweeper.width game))
            ∧ x ∈ Minesweeper.mines game) l)).
Proof.
  revert count. induction l as [|ij l IH]; intros count; simpl.
  - lia.
  - rewrite IH, filter_cons. unfold Minesweeper.nearby_step, Minesweeper.board.
    repeat case_decide; try case_bool_decide; simpl; try lia;
      exfalso; naive_solver.
Qed.

Lemma nearby_mines_neighbours game cell :
  Minesweeper.nearby_mines game cell
  = Z.of_nat (length (filter (λ x, x ∈ Minesweeper.mines game)
      (neighbours (Minesweeper.height game) (Minesweeper.width game) cell))).
Proof.
  unfold Minesweeper.nearby_mines, neighbours.
  rewrite foldl_nearby_step, list_filter_filter, Z.add_0_l. do 2 f_equal.
  apply list_filter_iff. intros x. tauto.
Qed.

(** ** Sentences that hold *)

Lemma holds_mark_safe game s cell :
  cell ∉ Minesweeper.mines game → holds game s →
  holds game (Sentence.mark_safe s cell).
Proof.
  unfold holds, Sentence.mark_safe. intros Hcell Hs.
  case_decide; simpl; [|done].
  rewrite <-Hs. do 2 f_equal. set_solver.
Qed.

Lemma known_mines_holds game s :
  holds game s → Sentence.known_mines s ⊆ Minesweeper.mines game.
Proof.
  unfold holds, Sentence.known_mines, Sentence.len. intros Hs.
  case_decide as Hlen; [|set_solver].
  assert (Sentence.cells s ∩ Minesweeper.mines game = Sentence.cells s) as Heq.
  { apply set_subseteq_size_eq; [set_solver|lia]. }
  set_solver.
Qed.

Lemma known_safes_holds game s :
  holds game s → Sentence.known_safes s ## Minesweeper.mines game.
Proof.
  unfold holds, Sentence.known_safes. intros Hs.
  case_decide as Hcount; [|set_solver].
  assert (Sentence.cells s ∩ Minesweeper.mines game = ∅) as Heq.
  { apply leibniz_equiv, size_empty_inv. lia. }
  set_solver.
Qed.

Lemma holds_difference game (new old : Sentence.t) :
  holds game new → holds game old →
  Sentence.cells old ⊆ Sentence.cells new →
  holds game (Sentence.Build (Sentence.cells new ∖ Sentence.cells old)
                             (Sentence.count new - Sentence.count old)).
Proof.
  unfold holds. simpl. intros Hnew Hold Hsub.
  replace ((Sentence.cells new ∖ Sentence.cells old) ∩ Minesweeper.mines game)
    with ((Sentence.cells new ∩ Minesweeper.mines game)
          ∖ (Sentence.cells old ∩ Minesweeper.mines game)) by set_solver.
  rewrite size_difference by set_solver.
  assert (size (Sentence.cells old ∩ Minesweeper.mines game)
          ≤ size (Sentence.cells new ∩ Minesweeper.mines game))%nat
    by (apply subseteq_size; set_solver).
  lia.
Qed.

Lemma holds_derived game new old s :
  holds game new → holds game old → derived new old s → holds game s.
Proof.
  intros Hnew Hold (_ & _ & [[Hsub ->]|[Hsub ->]]);
    by apply holds_difference.
Qed.

Lemma holds_new_sentence game self cell :
  sound game self →
  holds game (new_sentence self cell (Minesweeper.nearby_mines game cell)).
Proof.
  intros [Hh Hw Hmoves Hmines Hsafes _].
  unfold holds, new_sentence. simpl.
  rewrite scan_cells, scan_mines, nearby_mines_neighbours, Hh, Hw.
  set (N := neighbours _ _ _).
  assert ((list_to_set N ∖ (mines self ∪ safes self ∪ moves_made self))
            ∩ Minesweeper.mines game
          = list_to_set (filter (λ x, x ∈ Minesweeper.mines game
                                      ∧ x ∉ mines self) N)) as ->.
  { apply set_eq. intros x.
    rewrite elem_of_list_to_set, list_elem_of_filter. set_solver. }
  rewrite size_list_to_set by apply NoDup_filter, neighbours_NoDup.
  rewrite (length_filter_split (λ x, x ∈ Minesweeper.mines game)
             (λ x, x ∈ Minesweeper.mines game ∧ x ∉ mines self)
             (λ x, x ∈ mines self ∧ (x ∉ safes self) ∧ (x ∉ moves_made self)) N).
  - lia.
  - intros x _. destruct (decide (x ∈ mines self)); set_solver.
  - tauto.
Qed.

(** ** Every step of [add_knowledge] keeps the engine's beliefs true *)

Lemma is_mine_false game cell :
  Minesweeper.is_mine game cell = false ↔ cell ∉ Minesweeper.mines game.
Proof.
  unfold Minesweeper.is_mine, Minesweeper.board. destruct cell.
  by rewrite bool_decide_eq_false.
Qed.

Lemma is_mine_true game cell :
  Minesweeper.is_mine game cell = true ↔ cell ∈ Minesweeper.mines game.
Proof.
  unfold Minesweeper.is_mine, Minesweeper.board. destruct cell.
  by rewrite bool_decide_eq_true.
Qed.

Lemma sound_init game :
  sound game (init (Minesweeper.height game) (Minesweeper.width game)).
Proof. split; simpl; try done; set_solver. Qed.

Lemma sound_after_mark game self cell :
  cell ∉ Minesweeper.mines game → sound game self →
  sound game (after_mark self cell).
Proof.
  intros Hcell [Hh Hw Hmoves Hmines Hsafes Hkb].
  split; simpl; try done; try set_solver.
  apply Forall_fmap. eapply Forall_impl; [exact Hkb|].
  intros s Hs. by apply holds_mark_safe.
Qed.

Lemma sound_append game self s :
  holds game s → sound game self → sound game (append self s).
Proof.
  intros Hs [Hh Hw Hmoves Hmines Hsafes Hkb].
  split; simpl; try done. apply Forall_app. by split; [|repeat constructor].
Qed.

Lemma sound_direct_pass game self :
  sound game self → sound game (direct_pass self).
Proof.
  intros [Hh Hw Hmoves Hmines Hsafes Hkb]. rewrite Forall_forall in Hkb.
  split; simpl; try done.
  - set_solver.
  - intros c [Hc|Hc]%elem_of_union; [set_solver|].
    apply elem_of_collect in Hc as (s & Hs & Hc).
    by apply (known_mines_holds game s); [apply Hkb|].
  - intros c [Hc|Hc]%elem_of_union; [set_solver|].
    apply elem_of_collect in Hc as (s & Hs & Hc).
    by apply (known_safes_holds game s); [apply Hkb|].
  - by apply Forall_forall.
Qed.

Lemma sound_subset_pass game self new :
  holds game new → sound game self → sound game (subset_pass self new).
Proof.
  intros Hnew [Hh Hw Hmoves Hmines Hsafes Hkb].
  unfold subset_pass. rewrite foldl_append.
  split; simpl; try done. apply Forall_app. split; [done|].
  rewrite Forall_forall in Hkb. apply Forall_forall. intros s Hs.
  apply elem_of_to_add in Hs as (old & Hold & Hs).
  apply (holds_derived game new old); [done|by apply Hkb|done].
Qed.

Lemma sound_add_knowledge game self cell count :
  sound game self → consistent game (cell, count) →
  ∃ self', add_knowledge self cell count = Ok self' ∧ sound game self'.
Proof.
  intros Hself [Hcell%is_mine_false Hcount]. simpl in *.
  rewrite add_knowledge_retained. eexists. split; [done|].
  assert (sound game (after_mark self cell)) as Hmark
    by by apply sound_after_mark.
  assert (holds game (built self cell count)) as Hbuilt
    by (unfold built; rewrite Hcount; by apply holds_new_sentence).
  assert (sound game (before_simplify self cell count))
    as [Hh Hw Hmoves Hmines Hsafes Hkb].
  { by apply sound_subset_pass, sound_direct_pass, sound_append. }
  split; simpl; try done.
  rewrite Forall_forall in Hkb. apply Forall_forall.
  intros s [Hs _]%elem_of_retained. by apply Hkb.
Qed.

Lemma sound_play game calls self :
  sound game self → Forall (consistent game) calls →
  ∃ self', play self calls = Ok self' ∧ sound game self'.
Proof.
  revert self. induction calls as [|[cell count] calls IH];
    intros self Hself Hcalls; simpl.
  - eauto.
  - apply Forall_cons in Hcalls as [Hcall Hcalls].
    destruct (sound_add_knowledge game self cell count)
      as (self' & -> & Hself'); [done..|].
    simpl. by apply IH.
Qed.

(** C1 (soundness).  Start a fresh engine on the grid of a game and feed
    it any sequence of calls [add_knowledge(cell, count)] in which [cell] is
    a revealed cell of the game (not a mine) and [count] is the number the
    board reports for it.  Then every call returns, every cell of the
    engine's [mines] is a mine of the game and no cell of its [safes] is. *)
Theorem add_knowledge_sound (game : Minesweeper.t) (calls : list (Cell * Z)) :
  Forall (consistent game) calls →
  ∃ ai, play (init (Minesweeper.height game) (Minesweeper.width game)) calls
        = Ok ai
        ∧ (∀ c, c ∈ mines ai → Minesweeper.is_mine game c = true)
        ∧ (∀ c, c ∈ safes ai → Minesweeper.is_mine game c = false).
Proof.
  intros Hcalls.
  destruct (sound_play game calls _ (sound_init game) Hcalls)
    as (ai & Hplay & [_ _ _ Hmines Hsafes _]).
  exists ai. split; [done|]. split; intros c Hc.
  - apply is_mine_true. set_solver.
  - apply is_mine_false. set_solver.
Qed.

Lemma add_knowledge_sound_witness :
  let game := Minesweeper.Build 1 4 {[ (0, 2) ]} in
  let calls := [((0, 1), 1); ((0, 3), 1)] in
  Forall (consistent game) calls
  ∧ ∃ ai, play (init 1 4) calls = Ok ai
          ∧ (∀ c, c ∈ mines ai → Minesweeper.is_mine game c = true)
          ∧ (∀ c, c ∈ safes ai → Minesweeper.is_mine game c = false).
Proof.
  intros game calls.
  assert (Forall (consistent game) calls) as Hcalls.
  { repeat (apply Forall_cons; split; [split; vm_compute; reflexivity|]).
    apply Forall_nil_2. }
  split; [exact Hcalls|].
  exact (add_knowledge_sound game calls Hcalls).
Defined.

(** ** Step 3 as a partition of the neighbours *)

Lemma cell_not_neighbour height width cell :
  cell ∉ neighbours height width cell.
Proof. unfold neighbours. rewrite list_elem_of_filter. tauto. Qed.

(** C8.  In a state whose known mines are disjoint from its known safes
    and visited cells, the sentence built by [add_knowledge(cell, count)]
    has for cells the in-bounds neighbours of [cell] that are neither in
    [mines] nor in [safes] nor in [moves_made], for count [count] minus the
    number of neighbours in [mines], and it is appended to [knowledge]. *)
Theorem new_sentence_partition (self : t) (cell : Cell) (count : Z) :
  mines self ## safes self ∪ moves_made self →
  let N : gset Cell :=
    list_to_set (neighbours (height self) (width self) cell) in
  Sentence.cells (built self cell count)
  = N ∖ (mines self ∪ safes self ∪ moves_made self)
  ∧ Sentence.count (built self cell count)
    = count - Z.of_nat (size (N ∩ mines self))
  ∧ knowledge (after_append self cell count)
    = ((λ s, Sentence.mark_safe s cell) <$> knowledge self)
      ++ [built self cell count].
Proof.
  intros Hdisj N.
  assert (cell ∉ N) as Hcell
    by (unfold N; rewrite elem_of_list_to_set; apply cell_not_neighbour).
  unfold built, new_sentence. simpl. split; [|split; [|done]].
  - rewrite scan_cells. simpl. fold N. set_solver.
  - rewrite scan_mines. simpl.
    set (known := filter _ _).
    assert (N ∩ mines self = list_to_set known) as ->.
    { apply set_eq. intros x. unfold known, N in *.
      rewrite elem_of_intersection, !elem_of_list_to_set, list_elem_of_filter.
      rewrite elem_of_list_to_set in Hcell. simpl. set_solver. }
    by rewrite size_list_to_set by apply NoDup_filter, neighbours_NoDup.
Qed.

Lemma new_sentence_partition_witness :
  let self := Build 2 3 {[ (0, 0) ]} {[ (1, 1) ]} {[ (0, 0); (0, 2) ]} [] in
  let N : gset Cell := list_to_set (neighbours 2 3 (0, 1)) in
  mines self ## safes self ∪ moves_made self
  ∧ Sentence.cells (built self (0, 1) 2)
    = N ∖ (mines self ∪ safes self ∪ moves_made self)
  ∧ Sentence.count (built self (0, 1) 2)
    = 2 - Z.of_nat (size (N ∩ mines self))
  ∧ knowledge (after_append self (0, 1) 2)
    = ((λ s, Sentence.mark_safe s (0, 1)) <$> knowledge self)
      ++ [built self (0, 1) 2].
Proof.
  intros self N.
  assert (mines self ## safes self ∪ moves_made self) as Hdisj
    by (apply (bool_decide_eq_true_1 _); vm_compute; reflexivity).
  split; [exact Hdisj|].
  exact (new_sentence_partition self (0, 1) 2 Hdisj).
Defined.

Example new_sentence_example :
  built (Build 2 3 {[ (0, 0) ]} {[ (1, 1) ]} {[ (0, 0); (0, 2) ]} []) (0, 1) 2
  = Sentence.Build {[ (1, 0); (1, 2) ]} 1.
Proof. vm_compute. reflexivity. Qed.

(** ** Move selection *)

Lemma foldl_legal (moves : gset Cell) l acc :
  foldl (λ legal i, if decide (i ∉ moves) then legal ++ [i] else legal) acc l
  = acc ++ filter (λ i, i ∉ moves) l.
Proof.
  revert acc. induction l as [|i l IH]; intros acc; simpl.
  - by rewrite app_nil_r.
  - rewrite IH, filter_cons. case_decide; [|done].
    by rewrite <-(assoc_L (++)).
Qed.

Lemma elem_of_legal_moves iter self move :
  (∀ X x, x ∈ iter X ↔ x ∈ X) →
  move ∈ legal_moves iter self ↔ move ∈ safes self ∖ moves_made self.
Proof.
  intros Hiter. unfold legal_moves.
  rewrite foldl_legal, app_nil_l, list_elem_of_filter, Hiter. set_solver.
Qed.

(** C9.  Whatever the order in which the interpreter enumerates a set,
    [make_safe_move] returns a cell of [safes ∖ moves_made] when that set
    is not empty and [None] when it is; the cell it returns is never in
    [moves_made]; and the object is the same after the call. *)
Theorem make_safe_move_spec (iter : gset Cell → list Cell) (self : t) :
  (∀ X x, x ∈ iter X ↔ x ∈ X) →
  (safes self ∖ moves_made self ≠ ∅ →
   ∃ move, (make_safe_move iter self).1 = Some move
           ∧ move ∈ safes self ∖ moves_made self)
  ∧ (safes self ∖ moves_made self = ∅ → (make_safe_move iter self).1 = None)
  ∧ (∀ move, (make_safe_move iter self).1 = Some move →
             move ∉ moves_made self)
  ∧ (make_safe_move iter self).2 = self.
Proof.
  intros Hiter.
  pose proof (λ move, elem_of_legal_moves iter self move Hiter) as Hlegal.
  unfold make_safe_move.
  destruct (legal_moves iter self) as [|move legal]; simpl.
  - repeat split; try done.
    intros Hne. apply set_choose_L in Hne as [x Hx].
    apply Hlegal in Hx. by apply elem_of_nil in Hx.
  - assert (move ∈ safes self ∖ moves_made self) as Hmove
      by (apply Hlegal; left).
    repeat split.
    + eauto.
    + intros Hempty. set_solver.
    + intros ? [= <-]. set_solver.
Qed.

Lemma make_safe_move_spec_witness :
  let self := Build 1 3 {[ (0, 0) ]} ∅ {[ (0, 0); (0, 1) ]} [] in
  (∀ (X : gset Cell) x, x ∈ elements X ↔ x ∈ X)
  ∧ (safes self ∖ moves_made self ≠ ∅ →
     ∃ move, (make_safe_move elements self).1 = Some move
             ∧ move ∈ safes self ∖ moves_made self)
  ∧ (safes self ∖ moves_made self = ∅ →
     (make_safe_move elements self).1 = None)
  ∧ (∀ move, (make_safe_move elements self).1 = Some move →
             move ∉ moves_made self)
  ∧ (make_safe_move elements self).2 = self.
Proof.
  intros self.
  assert (∀ (X : gset Cell) x, x ∈ elements X ↔ x ∈ X) as Hiter
    by (intros X x; apply elem_of_elements).
  split; [exact Hiter|].
  exact (make_safe_move_spec elements self Hiter).
Defined.

Example make_safe_move_example :
  make_safe_move elements (Build 1 3 {[ (0, 0) ]} ∅ {[ (0, 0); (0, 1) ]} [])
  = (Some (0, 1), Build 1 3 {[ (0, 0) ]} ∅ {[ (0, 0); (0, 1) ]} []).
Proof. vm_compute. reflexivity. Qed.

(** ** The three sets only grow *)

Lemma grows_refl self : grows self self.
Proof. by unfold grows. Qed.

Lemma grows_trans self1 self2 self3 :
  grows self1 self2 → grows self2 self3 → grows self1 self3.
Proof. unfold grows. set_solver. Qed.

Lemma grows_mark_mine self cell : grows self (mark_mine self cell).
Proof. unfold grows. simpl. set_solver. Qed.

Lemma grows_mark_safe self cell : grows self (mark_safe self cell).
Proof. unfold grows. simpl. set_solver. Qed.

Lemma grows_before_simplify self cell count :
  grows self (before_simplify self cell count).
Proof.
  unfold before_simplify, subset_pass. rewrite foldl_append.
  unfold grows. simpl. set_solver.
Qed.

Lemma make_random_move_unchanged draw self :
  ∃ move, make_random_move draw self = Ok (move, self).
Proof.
  unfold make_random_move. rewrite remove_loop_filter. simpl.
  destruct (randrange _ _); eauto.
Qed.

(** C10.  [mark_mine], [mark_safe] and [add_knowledge] (which always
    returns) leave [moves_made], [mines] and [safes] each a superset of
    what it was; [make_safe_move] and [make_random_move] return the object
    as they found it. *)
Theorem classifications_only_grow :
  (∀ self cell, grows self (mark_mine self cell))
  ∧ (∀ self cell, grows self (mark_safe self cell))
  ∧ (∀ self cell count,
       ∃ self', add_knowledge self cell count = Ok self' ∧ grows self self')
  ∧ (∀ iter self, (make_safe_move iter self).2 = self)
  ∧ (∀ draw self, ∃ move, make_random_move draw self = Ok (move, self)).
Proof.
  split; [apply grows_mark_mine|]. split; [apply grows_mark_safe|].
  split; [|split].
  - intros self cell count. rewrite add_knowledge_retained.
    eexists; split; [done|].
    pose proof (grows_before_simplify self cell count) as Hg.
    unfold grows in *. simpl. done.
  - intros iter self. unfold make_safe_move. by destruct (legal_moves _ _).
  - apply make_random_move_unchanged.
Qed.

(** ** The 1×3 scenario *)

(** C6, as the code runs it.  On a fresh 1×3 engine the call
    [add_knowledge((0,0), 0)] returns with [safes = {(0,0), (0,1)}], no
    mine and an empty knowledge base: [(0,1)], the only neighbour of
    [(0,0)] on that grid, is classified safe, and [(0,2)] is not. *)
Theorem scenario_1x3 :
  add_knowledge (init 1 3) (0, 0) 0
  = Ok (Build 1 3 {[ (0, 0) ]} ∅ {[ (0, 0); (0, 1) ]} [])
  ∧ neighbours 1 3 (0, 0) = [(0, 1)].
Proof. split; vm_compute; reflexivity. Qed.

(** C6, as the specification words it, fails: [(0,2)] is not in [safes]
    after the call. *)
Lemma scenario_1x3_not_both_safe :
  ∃ ai, add_knowledge (init 1 3) (0, 0) 0 = Ok ai
        ∧ ¬ ((0, 1) ∈ safes ai ∧ (0, 2) ∈ safes ai).
Proof.
  exists (Build 1 3 {[ (0, 0) ]} ∅ {[ (0, 0); (0, 1) ]} []).
  split; [vm_compute; reflexivity|].
  simpl. intros [_ H]. revert H.
  apply (bool_decide_eq_false_1 _). vm_compute. reflexivity.
Qed.

(** ** Counts that no sentence can satisfy *)

Lemma built_in_before_simplify self cell count :
  built self cell count ∈ knowledge (before_simplify self cell count).
Proof.
  unfold before_simplify, subset_pass. rewrite foldl_append. simpl.
  rewrite !elem_of_app, list_elem_of_singleton. tauto.
Qed.

(** C7, as the code runs it.  [add_knowledge] raises on no input.  The
    sentence it builds has the count [count - len(nearby_mines)] whatever
    its sign or size; when that count is negative or exceeds the number of
    cells, and there is at least one cell, the sentence is still in
    [knowledge] when the call returns. *)
Theorem add_knowledge_never_raises (self : t) (cell : Cell) (count : Z) :
  ∃ self', add_knowledge self cell count = Ok self'
    ∧ Sentence.count (built self cell count)
      = count - Z.of_nat (length (scan (after_mark self cell) cell).2)
    ∧ (Sentence.count (built self cell count) < 0
       ∨ Sentence.len (built self cell count)
         < Sentence.count (built self cell count) →
       Sentence.cells (built self cell count) ≠ ∅ →
       built self cell count ∈ knowledge self').
Proof.
  rewrite add_knowledge_retained. eexists. split; [done|]. split; [done|].
  pose proof (built_in_before_simplify self cell count) as Hin.
  revert Hin. generalize (built self cell count). intros s Hin Hbad Hcells.
  cbn [knowledge]. apply elem_of_retained. split; [done|].
  assert (size (Sentence.cells s) ≠ 0%nat) as Hsize
    by (intros Hsize; by apply Hcells, leibniz_equiv, size_empty_inv).
  unfold Sentence.len in *. lia.
Qed.

Lemma add_knowledge_never_raises_witness :
  ∃ self', add_knowledge (init 1 3) (0, 0) 5 = Ok self'
    ∧ Sentence.count (built (init 1 3) (0, 0) 5)
      = 5 - Z.of_nat (length (scan (after_mark (init 1 3) (0, 0)) (0, 0)).2)
    ∧ (Sentence.count (built (init 1 3) (0, 0) 5) < 0
       ∨ Sentence.len (built (init 1 3) (0, 0) 5)
         < Sentence.count (built (init 1 3) (0, 0) 5) →
       Sentence.cells (built (init 1 3) (0, 0) 5) ≠ ∅ →
       built (init 1 3) (0, 0) 5 ∈ knowledge self').
Proof. exact (add_knowledge_never_raises (init 1 3) (0, 0) 5). Defined.

(** C7, as the specification words it, fails: a count of 5, or of -1,
    for a cell with a single neighbour is accepted, the call returns, and
    the impossible sentence stays in the knowledge base. *)
Lemma invalid_count_is_retained :
  add_knowledge (init 1 3) (0, 0) 5
  = Ok (Build 1 3 {[ (0, 0) ]} ∅ {[ (0, 0) ]}
              [Sentence.Build {[ (0, 1) ]} 5])
  ∧ add_knowledge (init 1 3) (0, 0) (-1)
    = Ok (Build 1 3 {[ (0, 0) ]} ∅ {[ (0, 0) ]}
                [Sentence.Build {[ (0, 1) ]} (-1)]).
Proof. split; vm_compute; reflexivity. Qed.

(** ** Which pairs the subset pass compares *)

(** C4, as the code runs it.  After the subset pass the knowledge base
    holds what it held before and, for each sentence [old] it held, what
    [old] and the sentence just built give: nothing when the new sentence
    has no cell or the same cells as [old]; the difference of the two when
    one's cells are included in the other's. *)
Theorem subset_pass_pairs (self : t) (cell : Cell) (count : Z) (s : Sentence.t) :
  s ∈ knowledge (before_simplify self cell count)
  ↔ s ∈ knowledge (after_direct self cell count)
    ∨ ∃ old, old ∈ knowledge (after_direct self cell count)
             ∧ derived (built self cell count) old s.
Proof.
  unfold before_simplify, subset_pass. rewrite foldl_append. simpl.
  by rewrite elem_of_app, elem_of_to_add.
Qed.

(** C4, as the specification words it, fails.  On a 1×5 board with one
    mine at [(0,2)], after the moves [(0,1)] and [(0,3)], the move [(0,0)]
    leaves in the knowledge base, when the subset pass starts, the
    sentences [{(0,2)} = 1] and [{(0,2), (0,4)} = 1]; the first is strictly
    included in the second, and [{(0,4)} = 0] is not added. *)
Lemma old_pairs_are_not_compared :
  ∃ self A B,
    play (init 1 5) [((0, 1), 1); ((0, 3), 1)] = Ok self
    ∧ A ∈ knowledge (after_direct self (0, 0) 0)
    ∧ B ∈ knowledge (after_direct self (0, 0) 0)
    ∧ Sentence.cells A ⊂ Sentence.cells B
    ∧ Sentence.Build (Sentence.cells B ∖ Sentence.cells A)
                     (Sentence.count B - Sentence.count A)
      ∉ knowledge (before_simplify self (0, 0) 0).
Proof.
  exists (Build 1 5 {[ (0, 1); (0, 3) ]} ∅ {[ (0, 1); (0, 3) ]}
            [Sentence.Build {[ (0, 0); (0, 2) ]} 1;
             Sentence.Build {[ (0, 2); (0, 4) ]} 1]),
    (Sentence.Build {[ (0, 2) ]} 1), (Sentence.Build {[ (0, 2); (0, 4) ]} 1).
  split; [vm_compute; reflexivity|].
  split; [apply (bool_decide_eq_true_1 _); vm_compute; reflexivity|].
  split; [apply (bool_decide_eq_true_1 _); vm_compute; reflexivity|].
  split.
  - simpl. set_solver.
  - apply (bool_decide_eq_false_1 _). vm_compute. reflexivity.
Qed.

(** ** Cells that are classified but stay in the sentences *)

(** The direct pass adds to [mines] and [safes] and leaves every sentence
    as it was. *)
Lemma direct_pass_knowledge self :
  knowledge (direct_pass self) = knowledge self.
Proof. done. Qed.

(** C2 at a run of the code.  A 1×4 board with one mine at [(0,2)]; the
    move [(0,1)] has been made and the move [(0,3)] reports 1.  The direct
    pass finds the mine [(0,2)] and puts it in [mines], but the sentences
    are those of before the pass, not those that [mark_mine] gives, and
    [(0,2)] is still a cell of [{(0,0), (0,2)} = 1] when the subset pass
    starts. *)
Theorem direct_pass_does_not_narrow :
  ∃ self,
    play (init 1 4) [((0, 1), 1)] = Ok self
    ∧ ((0, 2) ∉ mines (after_append self (0, 3) 1))
    ∧ (0, 2) ∈ mines (after_direct self (0, 3) 1)
    ∧ knowledge (after_direct self (0, 3) 1)
      = [Sentence.Build {[ (0, 0); (0, 2) ]} 1; Sentence.Build {[ (0, 2) ]} 1]
    ∧ knowledge (mark_mine (after_append self (0, 3) 1) (0, 2))
      = [Sentence.Build {[ (0, 0) ]} 0; Sentence.Build ∅ 0].
Proof.
  exists (Build 1 4 {[ (0, 1) ]} ∅ {[ (0, 1) ]}
            [Sentence.Build {[ (0, 0); (0, 2) ]} 1]).
  split; [vm_compute; reflexivity|].
  split; [apply (bool_decide_eq_false_1 _); vm_compute; reflexivity|].
  split; [apply (bool_decide_eq_true_1 _); vm_compute; reflexivity|].
  split; vm_compute; reflexivity.
Qed.

(** C3 at a run of the code.  On the same board, when the second call
    has returned, the knowledge base holds [{(0,0), (0,2)} = 1] while
    [(0,2)] is in [mines]. *)
Theorem classified_cell_stays_in_sentence :
  ∃ ai s,
    play (init 1 4) [((0, 1), 1); ((0, 3), 1)] = Ok ai
    ∧ Forall (consistent (Minesweeper.Build 1 4 {[ (0, 2) ]}))
             [((0, 1), 1); ((0, 3), 1)]
    ∧ s ∈ knowledge ai
    ∧ ¬ (Sentence.cells s ## mines ai ∪ safes ai).
Proof.
  exists (Build 1 4 {[ (0, 1); (0, 3) ]} {[ (0, 2) ]} {[ (0, 1); (0, 3) ]}
            [Sentence.Build {[ (0, 0); (0, 2) ]} 1]),
    (Sentence.Build {[ (0, 0); (0, 2) ]} 1).
  split; [vm_compute; reflexivity|].
  split.
  { repeat (apply Forall_cons; split; [split; vm_compute; reflexivity|]).
    apply Forall_nil_2. }
  split; [apply list_elem_of_here|].
  simpl. intros Hdisj. apply (Hdisj (0, 2)); set_solver.
Qed.

(** ** Sentences dropped before they are read *)

(** C5 at two runs of the code.  First, the same 1×4 board: the second
    call derives [{(0,0)} = 0] in the subset pass and the removal loops
    drop it, yet [(0,0)] is not in [safes], neither at that moment nor when
    the call has returned.  Second, the scenario of the specification: the
    knowledge base holds [{(1,1), (1,2)} = 1], the call builds
    [{(1,1), (1,2), (1,3)} = 2], the subset pass derives [{(1,3)} = 1], the
    removal loops drop it, and [(1,3)] is not in [mines]. *)
Theorem derived_sentence_dropped_unread :
  (∃ self ai,
     play (init 1 4) [((0, 1), 1)] = Ok self
     ∧ add_knowledge self (0, 3) 1 = Ok ai
     ∧ Sentence.Build {[ (0, 0) ]} 0 ∈ knowledge (before_simplify self (0, 3) 1)
     ∧ (Sentence.Build {[ (0, 0) ]} 0 ∉ knowledge ai)
     ∧ ((0, 0) ∉ safes (before_simplify self (0, 3) 1))
     ∧ ((0, 0) ∉ safes ai))
  ∧ (let self := Build 2 5 {[ (0, 1); (0, 3) ]} ∅ {[ (0, 1); (0, 3) ]}
                       [Sentence.Build {[ (1, 1); (1, 2) ]} 1] in
     ∃ ai,
       add_knowledge self (0, 2) 2 = Ok ai
       ∧ built self (0, 2) 2 = Sentence.Build {[ (1, 1); (1, 2); (1, 3) ]} 2
       ∧ Sentence.Build {[ (1, 3) ]} 1 ∈ knowledge (before_simplify self (0, 2) 2)
       ∧ (Sentence.Build {[ (1, 3) ]} 1 ∉ knowledge ai)
       ∧ ((1, 3) ∉ mines (before_simplify self (0, 2) 2))
       ∧ ((1, 3) ∉ mines ai)).
Proof.
  split.
  - exists (Build 1 4 {[ (0, 1) ]} ∅ {[ (0, 1) ]}
              [Sentence.Build {[ (0, 0); (0, 2) ]} 1]),
      (Build 1 4 {[ (0, 1); (0, 3) ]} {[ (0, 2) ]} {[ (0, 1); (0, 3) ]}
             [Sentence.Build {[ (0, 0); (0, 2) ]} 1]).
    split; [vm_compute; reflexivity|].
    split; [vm_compute; reflexivity|].
    split; [apply (bool_decide_eq_true_1 _); vm_compute; reflexivity|].
    repeat split; apply (bool_decide_eq_false_1 _); vm_compute; reflexivity.
  - intros self.
    exists (Build 2 5 {[ (0, 1); (0, 3); (0, 2) ]} ∅ {[ (0, 1); (0, 3); (0, 2) ]}
              [Sentence.Build {[ (1, 1); (1, 2) ]} 1;
               Sentence.Build {[ (1, 1); (1, 2); (1, 3) ]} 2]).
    split; [vm_compute; reflexivity|].
    split; [vm_compute; reflexivity|].
    split; [apply (bool_decide_eq_true_1 _); vm_compute; reflexivity|].
    repeat split; apply (bool_decide_eq_false_1 _); vm_compute; reflexivity.
Qed.

(** * Further properties of the three classes *)

(** ** Sentence: the two narrowing methods and the two readers *)

Lemma elem_of_mark_safe_cells s cell x :
  x ∈ Sentence.cells (Sentence.mark_safe s cell)
  ↔ x ∈ Sentence.cells s ∧ x ≠ cell.
Proof. unfold Sentence.mark_safe. case_decide; simpl; set_solver. Qed.

Lemma elem_of_mark_mine_cells s cell x :
  x ∈ Sentence.cells (Sentence.mark_mine s cell)
  ↔ x ∈ Sentence.cells s ∧ x ≠ cell.
Proof. unfold Sentence.mark_mine. case_decide; simpl; set_solver. Qed.

(** X1.  [Sentence.mark_mine] and [Sentence.mark_safe] change a sentence
    at most once: a second call with the same cell gives the sentence of
    the first call, count included. *)
Theorem sentence_mark_twice (s : Sentence.t) (cell : Cell) :
  Sentence.mark_mine (Sentence.mark_mine s cell) cell = Sentence.mark_mine s cell
  ∧ Sentence.mark_safe (Sentence.mark_safe s cell) cell
    = Sentence.mark_safe s cell.
Proof.
  split.
  - unfold Sentence.mark_mine at 1. rewrite decide_False; [done|].
    rewrite elem_of_mark_mine_cells. tauto.
  - unfold Sentence.mark_safe at 1. rewrite decide_False; [done|].
    rewrite elem_of_mark_safe_cells. tauto.
Qed.

(** X2.  Narrowing keeps a true sentence true: if exactly [count] cells of
    a sentence are mines of the game, it is still so after
    [mark_mine(cell)] for a cell that is a mine, and after
    [mark_safe(cell)] for a cell that is not. *)
Theorem sentence_mark_holds (game : Minesweeper.t) (s : Sentence.t) (cell : Cell) :
  holds game s →
  holds game (if decide (cell ∈ Minesweeper.mines game)
              then Sentence.mark_mine s cell
              else Sentence.mark_safe s cell).
Proof.
  intros Hs. case_decide as Hcell; [|by apply holds_mark_safe].
  unfold holds, Sentence.mark_mine in *. case_decide as Hin; simpl; [|done].
  replace ((Sentence.cells s ∖ {[cell]}) ∩ Minesweeper.mines game)
    with ((Sentence.cells s ∩ Minesweeper.mines game) ∖ {[cell]}) by set_solver.
  rewrite size_difference by set_solver. rewrite size_singleton.
  assert (size (Sentence.cells s ∩ Minesweeper.mines game) ≠ 0%nat).
  { intros Hsize. apply size_empty_inv in Hsize. set_solver. }
  lia.
Qed.

Lemma sentence_mark_holds_witness :
  let game := Minesweeper.Build 1 4 {[ (0, 2) ]} in
  let s := Sentence.Build {[ (0, 0); (0, 2) ]} 1 in
  holds game s
  ∧ holds game (if decide ((0, 2) ∈ Minesweeper.mines game)
                then Sentence.mark_mine s (0, 2)
                else Sentence.mark_safe s (0, 2)).
Proof.
  intros game s.
  assert (holds game s) as Hs by (vm_compute; reflexivity).
  split; [exact Hs|]. exact (sentence_mark_holds game s (0, 2) Hs).
Defined.

(** X3.  What a true sentence reports is right: every cell of
    [known_mines()] is a mine of the game and no cell of [known_safes()]
    is. *)
Theorem known_cells_are_right (game : Minesweeper.t) (s : Sentence.t) :
  holds game s →
  Sentence.known_mines s ⊆ Minesweeper.mines game
  ∧ Sentence.known_safes s ## Minesweeper.mines game.
Proof.
  intros Hs. split; [by apply known_mines_holds|by apply known_safes_holds].
Qed.

Lemma known_cells_are_right_witness :
  let game := Minesweeper.Build 1 4 {[ (0, 2) ]} in
  let s := Sentence.Build {[ (0, 2) ]} 1 in
  holds game s
  ∧ Sentence.known_mines s ⊆ Minesweeper.mines game
  ∧ Sentence.known_safes s ## Minesweeper.mines game.
Proof.
  intros game s.
  assert (holds game s) as Hs by (vm_compute; reflexivity).
  split; [exact Hs|]. exact (known_cells_are_right game s Hs).
Defined.

(** X4.  No sentence, true or not, reports a cell both as a mine and as
    safe: [known_mines()] and [known_safes()] are disjoint. *)
Theorem known_mines_safes_disjoint (s : Sentence.t) :
  Sentence.known_mines s ## Sentence.known_safes s.
Proof.
  unfold Sentence.known_mines, Sentence.known_safes, Sentence.len.
  repeat case_decide; try set_solver.
  assert (Sentence.cells s = ∅) as ->
    by (apply leibniz_equiv, size_empty_inv; lia).
  set_solver.
Qed.

(** ** Minesweeper: the count the board reports *)

Lemma cell_in_around cell : cell ∈ around cell.
Proof.
  destruct cell as [r c]. unfold around, range3. simpl.
  do 4 apply list_elem_of_further.
  replace (r - 1 + 1, c - 1 + 1) with (r, c) by (f_equal; lia).
  apply list_elem_of_here.
Qed.

Lemma neighbours_length height width cell :
  (length (neighbours height width cell) ≤ 8)%nat.
Proof.
  assert (length (neighbours height width cell) < length (around cell))%nat
    as Hlt.
  { apply (length_filter_lt _ _ cell); [apply cell_in_around|tauto]. }
  destruct cell. simpl in Hlt. lia.
Qed.

(** X5.  [nearby_mines(cell)] is the number of cells that are mines among
    the in-bounds cells within one row and one column of [cell], [cell]
    itself left out; it lies between 0 and 8. *)
Theorem nearby_mines_count (game : Minesweeper.t) (cell : Cell) :
  Minesweeper.nearby_mines game cell
  = Z.of_nat (size
      (list_to_set (neighbours (Minesweeper.height game)
                               (Minesweeper.width game) cell)
       ∩ Minesweeper.mines game))
  ∧ 0 ≤ Minesweeper.nearby_mines game cell ≤ 8.
Proof.
  rewrite nearby_mines_neighbours.
  set (N := neighbours _ _ _).
  set (M := filter _ N).
  assert (list_to_set N ∩ Minesweeper.mines game = list_to_set M) as ->.
  { apply set_eq. intros x. unfold M.
    rewrite elem_of_intersection, !elem_of_list_to_set, list_elem_of_filter.
    tauto. }
  rewrite size_list_to_set by apply NoDup_filter, neighbours_NoDup.
  split; [done|].
  pose proof (length_filter (λ x, x ∈ Minesweeper.mines game) N) as Hle.
  pose proof (neighbours_length (Minesweeper.height game)
                (Minesweeper.width game) cell) as Hle8.
  fold N in Hle8. unfold M. lia.
Qed.

(** ** MinesweeperAI: marking a cell *)

(** X6.  After [mark_mine(cell)] the cell is in [mines] and in no
    sentence of the knowledge base; after [mark_safe(cell)] it is in
    [safes] and in no sentence; neither call changes the number of
    sentences. *)
Theorem mark_removes_cell (self : t) (cell : Cell) :
  (cell ∈ mines (mark_mine self cell)
   ∧ Forall (λ s, cell ∉ Sentence.cells s) (knowledge (mark_mine self cell))
   ∧ length (knowledge (mark_mine self cell)) = length (knowledge self))
  ∧ (cell ∈ safes (mark_safe self cell)
     ∧ Forall (λ s, cell ∉ Sentence.cells s) (knowledge (mark_safe self cell))
     ∧ length (knowledge (mark_safe self cell)) = length (knowledge self)).
Proof.
  split; (split; [simpl; set_solver|]); simpl;
    (split; [|by rewrite length_fmap]);
    apply Forall_fmap, Forall_forall; intros s _; simpl.
  - rewrite elem_of_mark_mine_cells. tauto.
  - rewrite elem_of_mark_safe_cells. tauto.
Qed.

(** ** MinesweeperAI: what [add_knowledge] leaves behind *)

Lemma knowledge_after_direct self cell count :
  knowledge (after_direct self cell count)
  = ((λ s, Sentence.mark_safe s cell) <$> knowledge self)
    ++ [built self cell count].
Proof. done. Qed.

Lemma knowledge_before_simplify self cell count :
  knowledge (before_simplify self cell count)
  = knowledge (after_direct self cell count)
    ++ to_add (built self cell count) (knowledge (after_direct self cell count)).
Proof. unfold before_simplify, subset_pass. by rewrite foldl_append. Qed.

Lemma built_cells self cell count x :
  x ∈ Sentence.cells (built self cell count)
  ↔ x ∈ neighbours (height self) (width self) cell
    ∧ (x ∉ mines self) ∧ (x ∉ safes self) ∧ (x ∉ moves_made self).
Proof.
  pose proof (cell_not_neighbour (height self) (width self) cell) as Hcell.
  unfold built, new_sentence. simpl. rewrite scan_cells. simpl.
  rewrite elem_of_difference, elem_of_list_to_set. set_solver.
Qed.

Lemma after_direct_cells self cell count s x :
  s ∈ knowledge (after_direct self cell count) →
  x ∈ Sentence.cells s →
  x ≠ cell
  ∧ ((∃ old, old ∈ knowledge self ∧ x ∈ Sentence.cells old)
     ∨ x ∈ Sentence.cells (built self cell count)).
Proof.
  pose proof (cell_not_neighbour (height self) (width self) cell) as Hcell.
  intros Hs Hx. rewrite knowledge_after_direct in Hs.
  apply elem_of_app in Hs as [Hs|Hs].
  2: apply list_elem_of_singleton in Hs as ->.
  - apply list_elem_of_fmap in Hs as (old & -> & Hold).
    apply elem_of_mark_safe_cells in Hx as [Hx Hne]. eauto.
  - split; [|by right]. apply built_cells in Hx as [Hx _].
    intros ->. done.
Qed.

Lemma to_add_cells new kb s x :
  s ∈ to_add new kb → x ∈ Sentence.cells s →
  x ∈ Sentence.cells new ∨ ∃ old, old ∈ kb ∧ x ∈ Sentence.cells old.
Proof.
  intros (old & Hold & _ & _ & [[_ ->]|[_ ->]])%elem_of_to_add Hx;
    simpl in Hx; set_solver.
Qed.

(** Where the cells of the sentences come from when the removal loops
    start: from a sentence that was there at the call, or from the
    neighbours put in the new sentence; never the revealed cell. *)
Lemma before_simplify_cells self cell count s x :
  s ∈ knowledge (before_simplify self cell count) →
  x ∈ Sentence.cells s →
  x ≠ cell
  ∧ ((∃ old, old ∈ knowledge self ∧ x ∈ Sentence.cells old)
     ∨ x ∈ Sentence.cells (built self cell count)).
Proof.
  pose proof (after_direct_cells self cell count) as Hdirect.
  rewrite knowledge_before_simplify. intros Hs Hx.
  apply elem_of_app in Hs as [Hs|Hs]; [by apply (Hdirect s)|].
  destruct (to_add_cells _ _ _ _ Hs Hx) as [Hnew|(old & Hold & Hin)].
  - apply (Hdirect (built self cell count)); [|exact Hnew].
    rewrite knowledge_after_direct, elem_of_app, list_elem_of_singleton. tauto.
  - by apply (Hdirect old).
Qed.

Lemma before_simplify_grid self cell count :
  height (before_simplify self cell count) = height self
  ∧ width (before_simplify self cell count) = width self
  ∧ moves_made (before_simplify self cell count) = moves_made self ∪ {[cell]}
  ∧ mines self ⊆ mines (before_simplify self cell count)
  ∧ safes self ∪ {[cell]} ⊆ safes (before_simplify self cell count).
Proof.
  unfold before_simplify, subset_pass. rewrite foldl_append. simpl.
  repeat split; set_solver.
Qed.

(** X7.  [add_knowledge(cell, count)] returns for every object, cell and
    count; afterwards [cell] is in [moves_made] and in [safes], the grid
    size is what it was, and [cell] is in no sentence of the knowledge
    base. *)
Theorem revealed_cell_recorded (self : t) (cell : Cell) (count : Z) :
  ∃ self', add_knowledge self cell count = Ok self'
    ∧ height self' = height self ∧ width self' = width self
    ∧ cell ∈ moves_made self' ∧ cell ∈ safes self'
    ∧ Forall (λ s, cell ∉ Sentence.cells s) (knowledge self').
Proof.
  rewrite add_knowledge_retained. eexists. split; [done|].
  destruct (before_simplify_grid self cell count)
    as (Hh & Hw & Hmoves & _ & Hsafes).
  cbv zeta. cbn [height width moves_made safes knowledge].
  rewrite Hh, Hw, Hmoves. repeat split; try set_solver.
  apply Forall_forall. intros s [Hs _]%elem_of_retained Hcell.
  by destruct (before_simplify_cells self cell count s cell Hs Hcell).
Qed.

(** X8.  When [add_knowledge] has returned, every sentence of the
    knowledge base was there when the removal loops started, has at least
    one cell, a count other than 0 and a count other than its number of
    cells; and every such sentence is kept. *)
Theorem knowledge_after_call (self : t) (cell : Cell) (count : Z) :
  ∃ self', add_knowledge self cell count = Ok self'
    ∧ ∀ s, s ∈ knowledge self'
           ↔ s ∈ knowledge (before_simplify self cell count)
             ∧ Sentence.cells s ≠ ∅ ∧ Sentence.count s ≠ 0
             ∧ Sentence.len s ≠ Sentence.count s.
Proof.
  rewrite add_knowledge_retained. eexists. split; [done|].
  intros s. cbn [knowledge]. rewrite elem_of_retained.
  assert (Sentence.len s ≠ 0 ↔ Sentence.cells s ≠ ∅) as ->; [|done].
  unfold Sentence.len. split; intros Hne Heq; apply Hne.
  - by rewrite Heq, size_empty.
  - apply leibniz_equiv, size_empty_inv. lia.
Qed.

(** ** MinesweeperAI: what holds after any sequence of calls *)

Lemma add_knowledge_avoids_moves self cell count :
  Forall (λ s, Sentence.cells s ## moves_made self) (knowledge self) →
  ∃ self', add_knowledge self cell count = Ok self'
    ∧ Forall (λ s, Sentence.cells s ## moves_made self') (knowledge self').
Proof.
  intros Hkb. rewrite Forall_forall in Hkb.
  rewrite add_knowledge_retained. eexists. split; [done|].
  destruct (before_simplify_grid self cell count) as (_ & _ & Hmoves & _).
  cbv zeta. cbn [moves_made knowledge]. rewrite Hmoves.
  apply Forall_forall. intros s [Hs _]%elem_of_retained x Hx.
  destruct (before_simplify_cells self cell count s x Hs Hx)
    as [Hne [(old & Hold & Hin)|Hin]].
  - specialize (Hkb old Hold x Hin). set_solver.
  - apply built_cells in Hin. set_solver.
Qed.

Lemma play_avoids_moves calls self :
  moves_made self ⊆ safes self →
  Forall (λ s, Sentence.cells s ## moves_made self) (knowledge self) →
  ∃ self', play self calls = Ok self'
    ∧ moves_made self' ⊆ safes self'
    ∧ Forall (λ s, Sentence.cells s ## moves_made self') (knowledge self').
Proof.
  revert self. induction calls as [|[cell count] calls IH];
    intros self Hmoves Hkb; simpl.
  - eauto.
  - destruct (add_knowledge_avoids_moves self cell count Hkb)
      as (self' & Hcall & Hkb').
    rewrite Hcall. simpl. apply IH; [|done].
    rewrite add_knowledge_retained in Hcall. injection Hcall as <-.
    destruct (before_simplify_grid self cell count) as (_ & _ & -> & _ & Hsafes).
    cbn [moves_made safes]. set_solver.
Qed.

(** X9.  Whatever the cells and the counts, consistent or not, a sequence
    of [add_knowledge] calls on a fresh engine returns, every cell of
    [moves_made] is in [safes], and no sentence of the knowledge base
    contains a cell of [moves_made]. *)
Theorem sentences_avoid_moves_made (height width : Z) (calls : list (Cell * Z)) :
  ∃ ai, play (init height width) calls = Ok ai
    ∧ moves_made ai ⊆ safes ai
    ∧ Forall (λ s, Sentence.cells s ## moves_made ai) (knowledge ai).
Proof. apply play_avoids_moves; [done|]. simpl. constructor. Qed.

Lemma sound_play_undetermined game calls self :
  sound game self →
  Forall (λ s, Sentence.count s ≠ 0 ∧ Sentence.len s ≠ Sentence.count s)
         (knowledge self) →
  Forall (consistent game) calls →
  ∃ self', play self calls = Ok self' ∧ sound game self'
    ∧ Forall (λ s, Sentence.count s ≠ 0 ∧ Sentence.len s ≠ Sentence.count s)
             (knowledge self').
Proof.
  revert self. induction calls as [|[cell count] calls IH];
    intros self Hself Hkb Hcalls; simpl.
  - eauto.
  - apply Forall_cons in Hcalls as [Hcall Hcalls].
    destruct (sound_add_knowledge game self cell count)
      as (self' & Heq & Hself'); [done..|].
    rewrite Heq. simpl. apply IH; [done| |done].
    rewrite add_knowledge_retained in Heq. injection Heq as <-.
    cbv zeta. cbn [knowledge]. apply Forall_forall.
    intros s Hs%elem_of_retained. tauto.
Qed.

(** X10.  After calls that agree with a game, the engine's [mines] and
    [safes] are disjoint, and every sentence of its knowledge base is true
    of the game with a count strictly between 0 and its number of cells. *)
Theorem consistent_play_invariants (game : Minesweeper.t) (calls : list (Cell * Z)) :
  Forall (consistent game) calls →
  ∃ ai, play (init (Minesweeper.height game) (Minesweeper.width game)) calls
        = Ok ai
    ∧ mines ai ## safes ai
    ∧ Forall (λ s, holds game s ∧ 0 < Sentence.count s < Sentence.len s)
             (knowledge ai).
Proof.
  intros Hcalls.
  destruct (sound_play_undetermined game calls _ (sound_init game)
              (Forall_nil_2 _) Hcalls)
    as (ai & Hplay & [_ _ _ Hmines Hsafes Hkb] & Hund).
  exists ai. split; [done|]. split; [set_solver|].
  rewrite Forall_forall in Hkb, Hund. apply Forall_forall. intros s Hs.
  specialize (Hkb s Hs). specialize (Hund s Hs). split; [done|].
  unfold holds, Sentence.len in *.
  assert (size (Sentence.cells s ∩ Minesweeper.mines game)
          ≤ size (Sentence.cells s))%nat by (apply subseteq_size; set_solver).
  lia.
Qed.

Lemma consistent_play_invariants_witness :
  let game := Minesweeper.Build 1 5 {[ (0, 2) ]} in
  let calls := [((0, 1), 1); ((0, 3), 1); ((0, 0), 0)] in
  Forall (consistent game) calls
  ∧ ∃ ai, play (init 1 5) calls = Ok ai
      ∧ mines ai ## safes ai
      ∧ Forall (λ s, holds game s ∧ 0 < Sentence.count s < Sentence.len s)
               (knowledge ai).
Proof.
  intros game calls.
  assert (Forall (consistent game) calls) as Hcalls.
  { repeat (apply Forall_cons; split; [split; vm_compute; reflexivity|]).
    apply Forall_nil_2. }
  split; [exact Hcalls|].
  exact (consistent_play_invariants game calls Hcalls).
Defined.

(** X11.  After calls that agree with a game, the cell that
    [make_safe_move] returns, if any, is not a mine of the game and has
    not been played, whatever the order in which a set is enumerated. *)
Theorem safe_move_is_safe (game : Minesweeper.t) (calls : list (Cell * Z))
    (iter : gset Cell → list Cell) :
  Forall (consistent game) calls →
  (∀ X x, x ∈ iter X ↔ x ∈ X) →
  ∃ ai, play (init (Minesweeper.height game) (Minesweeper.width game)) calls
        = Ok ai
    ∧ ∀ move, (make_safe_move iter ai).1 = Some move →
              Minesweeper.is_mine game move = false ∧ move ∉ moves_made ai.
Proof.
  intros Hcalls Hiter.
  destruct (sound_play game calls _ (sound_init game) Hcalls)
    as (ai & Hplay & [_ _ _ _ Hsafes _]).
  exists ai. split; [done|]. intros move Hmove.
  assert (move ∈ safes ai ∖ moves_made ai) as Hin.
  { apply (elem_of_legal_moves iter ai move Hiter).
    unfold make_safe_move in Hmove.
    destruct (legal_moves iter ai); simpl in Hmove; [done|].
    injection Hmove as ->. left. }
  rewrite is_mine_false. set_solver.
Qed.

Lemma safe_move_is_safe_witness :
  let game := Minesweeper.Build 1 3 ∅ in
  let calls := [((0, 0), 0)] in
  Forall (consistent game) calls
  ∧ (∀ (X : gset Cell) x, x ∈ elements X ↔ x ∈ X)
  ∧ ∃ ai, play (init 1 3) calls = Ok ai
      ∧ ∀ move, (make_safe_move elements ai).1 = Some move →
                Minesweeper.is_mine game move = false ∧ move ∉ moves_made ai.
Proof.
  intros game calls.
  assert (Forall (consistent game) calls) as Hcalls.
  { repeat (apply Forall_cons; split; [split; vm_compute; reflexivity|]).
    apply Forall_nil_2. }
  assert (∀ (X : gset Cell) x, x ∈ elements X ↔ x ∈ X) as Hiter
    by (intros X x; apply elem_of_elements).
  split; [exact Hcalls|]. split; [exact Hiter|].
  exact (safe_move_is_safe game calls elements Hcalls Hiter).
Defined.

(** ** MinesweeperAI: the passes of [add_knowledge] *)

(** X12.  The direct pass reads every sentence that is in the knowledge
    base when it runs, the new one included: when [add_knowledge] has
    returned, the cells of such a sentence with count 0 are all in [safes]
    and the cells of such a sentence with as many cells as its count are
    all in [mines]. *)
Theorem direct_pass_reads_all (self : t) (cell : Cell) (count : Z) :
  ∃ self', add_knowledge self cell count = Ok self'
    ∧ Forall (λ s, Sentence.known_mines s ⊆ mines self'
                   ∧ Sentence.known_safes s ⊆ safes self')
             (knowledge (after_append self cell count)).
Proof.
  rewrite add_knowledge_retained. eexists. split; [done|].
  cbv zeta. cbn [mines safes].
  unfold before_simplify, subset_pass. rewrite foldl_append.
  cbn [mines safes]. unfold after_direct, direct_pass. cbn [mines safes].
  apply Forall_forall. intros s Hs. split; intros x Hx;
    apply elem_of_union; right; apply elem_of_collect; eauto.
Qed.

(** X13.  The subset pass derives only true sentences from true ones: if
    the new sentence and the sentences of the knowledge base are true of a
    game, so is every sentence of [to_add]. *)
Theorem to_add_holds (game : Minesweeper.t) (new : Sentence.t)
    (kb : list Sentence.t) :
  holds game new → Forall (holds game) kb →
  Forall (holds game) (to_add new kb).
Proof.
  intros Hnew Hkb. rewrite Forall_forall in Hkb. apply Forall_forall.
  intros s (old & Hold & Hs)%elem_of_to_add.
  apply (holds_derived game new old); [done|by apply Hkb|done].
Qed.

Lemma to_add_holds_witness :
  let game := Minesweeper.Build 2 5 {[ (1, 1); (1, 3) ]} in
  let new := Sentence.Build {[ (1, 1); (1, 2); (1, 3) ]} 2 in
  let kb := [Sentence.Build {[ (1, 1); (1, 2) ]} 1] in
  holds game new ∧ Forall (holds game) kb
  ∧ Forall (holds game) (to_add new kb).
Proof.
  intros game new kb.
  assert (holds game new) as Hnew by (vm_compute; reflexivity).
  assert (Forall (holds game) kb) as Hkb
    by (apply Forall_cons; split; [vm_compute; reflexivity|apply Forall_nil_2]).
  split; [exact Hnew|]. split; [exact Hkb|].
  exact (to_add_holds game new kb Hnew Hkb).
Defined.

Lemma subset_step_length new acc old :
  (length (subset_step new acc old) ≤ S (length acc))%nat.
Proof.
  unfold subset_step. repeat case_decide; rewrite ?length_app; simpl; try lia.
  exfalso. set_solver.
Qed.

Lemma foldl_subset_step_length new kb acc :
  (length (foldl (subset_step new) acc kb) ≤ length acc + length kb)%nat.
Proof.
  revert acc. induction kb as [|old kb IH]; intros acc; simpl; [lia|].
  etrans; [apply IH|]. pose proof (subset_step_length new acc old). lia.
Qed.

(** X14.  A sentence of the knowledge base gives at most one derived
    sentence, so one call of [add_knowledge] leaves at most twice as many
    sentences as there were, plus two. *)
Theorem knowledge_growth (self : t) (cell : Cell) (count : Z) :
  ∃ self', add_knowledge self cell count = Ok self'
    ∧ (length (knowledge self') ≤ 2 * length (knowledge self) + 2)%nat.
Proof.
  rewrite add_knowledge_retained. eexists. split; [done|].
  cbv zeta. cbn [knowledge]. rewrite knowledge_before_simplify.
  unfold retained. do 3 (etrans; [apply length_filter|]).
  rewrite length_app. unfold to_add.
  pose proof (foldl_subset_step_length (built self cell count)
                (knowledge (after_direct self cell count)) []) as Hle.
  rewrite knowledge_after_direct in *.
  rewrite length_app, length_fmap in *. simpl in *. lia.
Qed.

(** ** MinesweeperAI: the random move *)

Lemma elem_of_range n x : x ∈ range n ↔ 0 ≤ x < n.
Proof.
  unfold range. rewrite list_elem_of_fmap. split.
  - intros (k & -> & Hk%elem_of_seq). lia.
  - intros Hx. exists (Z.to_nat x). rewrite elem_of_seq. lia.
Qed.

Lemma elem_of_grid height width (c : Cell) :
  c ∈ (i ← range height; j ← range width; [(i, j)])
  ↔ (0 ≤ c.1 < height) ∧ (0 ≤ c.2 < width).
Proof.
  destruct c as [a b]. rewrite list_elem_of_bind. split.
  - intros (i & (j & Hc & Hj)%list_elem_of_bind & Hi).
    apply list_elem_of_singleton in Hc as [= -> ->].
    by rewrite <-!elem_of_range.
  - intros [Ha Hb]. exists a. rewrite elem_of_range. split; [|done].
    apply list_elem_of_bind. exists b.
    rewrite elem_of_range, list_elem_of_singleton. done.
Qed.

(** X15.  [make_random_move] never raises and leaves the object as it
    was.  The cell it returns is on the grid, is not in [mines] and is not
    in [moves_made]; it returns [None] exactly when the grid has no such
    cell. *)
Theorem make_random_move_spec (draw : nat) (self : t) :
  ∃ move, make_random_move draw self = Ok (move, self)
    ∧ (∀ c, move = Some c →
            (0 ≤ c.1 < height self) ∧ (0 ≤ c.2 < width self)
            ∧ (c ∉ mines self) ∧ (c ∉ moves_made self))
    ∧ (move = None ↔
       ∀ c : Cell, (0 ≤ c.1 < height self) ∧ (0 ≤ c.2 < width self) →
                   c ∈ mines self ∨ c ∈ moves_made self).
Proof.
  unfold make_random_move. rewrite remove_loop_filter.
  cbn [mbind result_bind].
  set (possible := filter _ _).
  assert (∀ c, c ∈ possible ↔
               (0 ≤ c.1 < height self) ∧ (0 ≤ c.2 < width self)
               ∧ (c ∉ mines self) ∧ (c ∉ moves_made self)) as Hpossible.
  { intros c. unfold possible.
    rewrite list_elem_of_filter, elem_of_grid, bool_decide_eq_false. tauto. }
  destruct (length possible) as [|n] eqn:Hlen; cbn [randrange].
  - eexists. split; [done|]. split; [done|]. split; [|done].
    intros _ c Hc. apply nil_length_inv in Hlen.
    destruct (decide (c ∈ mines self)); [tauto|].
    destruct (decide (c ∈ moves_made self)); [tauto|].
    assert (c ∈ possible) as Hin by (apply Hpossible; tauto).
    rewrite Hlen in Hin. by apply elem_of_nil in Hin.
  - destruct (lookup_lt_is_Some_2 possible (draw `mod` S n)%nat) as [c Hc].
    { rewrite Hlen. apply Nat.mod_upper_bound. lia. }
    rewrite Hc. eexists. split; [done|].
    assert (c ∈ possible) as Hin by (by eapply list_elem_of_lookup_2).
    split.
    + intros ? [= <-]. by apply Hpossible.
    + split; [done|]. intros Hall. apply Hpossible in Hin.
      destruct (Hall c) as [?|?]; tauto.
Qed.

(** ** Sentence: what narrowing counts *)

(** X16.  [mark_mine] removes one cell and one mine together, so the
    number of cells that are not mines, [len - count], is what it was;
    [mark_safe] leaves the count as it was and removes at most one cell. *)
Theorem sentence_mark_balance (s : Sentence.t) (cell : Cell) :
  Sentence.len (Sentence.mark_mine s cell)
  - Sentence.count (Sentence.mark_mine s cell)
  = Sentence.len s - Sentence.count s
  ∧ Sentence.count (Sentence.mark_safe s cell) = Sentence.count s
  ∧ Sentence.len s - 1 ≤ Sentence.len (Sentence.mark_safe s cell)
    ≤ Sentence.len s.
Proof.
  unfold Sentence.mark_mine, Sentence.mark_safe, Sentence.len.
  case_decide as Hin; simpl; [|lia].
  rewrite size_difference by set_solver. rewrite size_singleton.
  assert (size (Sentence.cells s) ≠ 0%nat).
  { intros Hsize. apply size_empty_inv in Hsize. set_solver. }
  lia.
Qed.
